(** * The guided-tour sequencer of [src/hooks/useTour.ts]

    A shallow embedding of the [useTour] hook: the [TourState] it owns, the
    browser facilities it touches ([window.location.pathname],
    [localStorage], [setTimeout], the router's [navigate]) and its control
    operations, followed by the properties of the sequencer.

    React applies the queued [setTourState] updaters of one handler in the
    order they were queued, so a handler is the composition of its updaters;
    [Date.now()] is an input of every operation that reads the clock. *)

From Stdlib Require Import ZArith Lia Sorted.
From stdpp Require Import gmap strings list.

(** ** react-joyride constants used by the hook *)

Module ACTIONS.
Inductive t := INIT | START | STOP | RESET | PREV | NEXT | GO | CLOSE | SKIP | UPDATE.
#[global] Instance eq_dec : EqDecision t := ltac:(solve_decision).
End ACTIONS.

Module EVENTS.
Inductive t :=
  | TOUR_START | STEP_BEFORE | BEACON | TOOLTIP | STEP_AFTER
  | TOUR_END | TOUR_STATUS | TARGET_NOT_FOUND | ERROR.
#[global] Instance eq_dec : EqDecision t := ltac:(solve_decision).
End EVENTS.

Module STATUS.
Inductive t := IDLE | READY | WAITING | RUNNING | PAUSED | SKIPPED | FINISHED | ERROR.
#[global] Instance eq_dec : EqDecision t := ltac:(solve_decision).
End STATUS.

(** ** Data model *)

(** A joyride [Step] with the hook's custom [navigateTo] property; absent
    optional properties are [None]. *)
Record Step := mkStep {
  target : string;
  content : string;
  placement : string;
  disableBeacon : option bool;
  navigateTo : option string;
}.

Record TourState := mkTourState {
  run : bool;
  steps : list Step;
  stepIndex : Z;
  tourKey : Z;
}.

(** The fields of joyride's [CallBackProps] that the hook destructures. *)
Record CallBackProps := mkCallBack {
  action : ACTIONS.t;
  index : Z;
  status : STATUS.t;
  type : EVENTS.t;
}.

(** The only callback ever handed to [setTimeout] is the resume closure of
    [handleNavigation]. *)
Inductive TimerCallback := ResumeTour.

Record Timer := mkTimer {
  callback : TimerCallback;
  delay : Z;
}.

(** The hook's state together with the browser state it reads and writes.
    [setItemLog] and [navigateLog] record the calls made, oldest first. *)
Record World := mkWorld {
  tourState : TourState;
  pathname : string;
  localStorage : gmap string string;
  setItemLog : list (string * string);
  timers : list Timer;
  navigateLog : list string;
}.

(** ** INITIAL_STEPS *)

Definition dquote : string :=
  String (Ascii.Ascii false true false false false true false false) EmptyString.

(** The selector [[data-tour=<quoted name>]]. *)
Definition data_tour (name : string) : string :=
  "[data-tour=" +:+ dquote +:+ name +:+ dquote +:+ "]".

Definition INITIAL_STEPS : list Step :=
  [ mkStep (data_tour "navbar")
      "This is the main navigation bar. You can use it to move between different sections of the application."
      "bottom" (Some true) None;
    mkStep (data_tour "navbar-dashboard")
      "Click here to go to your Dashboard." "bottom" None None;
    mkStep (data_tour "navbar-profile")
      "Click here to view your Profile." "bottom" None None;
    mkStep (data_tour "navbar-settings")
      "Click here to manage your Settings." "bottom" None None;
    mkStep (data_tour "dashboard-title")
      "Welcome to the Dashboard! This is where you get an overview of your activities."
      "bottom" None (Some "/");
    mkStep (data_tour "dashboard-content")
      "This area shows key information and summaries." "top" None None;
    mkStep (data_tour "profile-title")
      "This is your Profile page." "bottom" None (Some "/profile");
    mkStep (data_tour "profile-content")
      "Here you can view and edit your personal information." "top" None None;
    mkStep (data_tour "settings-title")
      "This is the Settings page." "bottom" None (Some "/settings");
    mkStep (data_tour "settings-content")
      "Configure application preferences and settings here." "top" None None;
    mkStep "body"
      "You have completed the tour! Feel free to explore the application."
      "center" None (Some "/") ].

(** ** JavaScript idioms *)

(** [steps[i]]: [undefined] (here [None]) outside the array. *)
Definition stepAt (l : list Step) (i : Z) : option Step :=
  if (i <? 0)%Z then None else l !! Z.to_nat i.

(** Truthiness of the [navigateTo] property: [undefined] and the empty
    string are falsy, every other string is truthy. *)
Definition truthyPath (p : option string) : option string :=
  match p with
  | Some s => if decide (s = "") then None else Some s
  | None => None
  end.

(** ** State updates *)

Definition setTourState (f : TourState -> TourState) (w : World) : World :=
  mkWorld (f (tourState w)) (pathname w) (localStorage w) (setItemLog w)
          (timers w) (navigateLog w).

Definition withRun (b : bool) (prev : TourState) : TourState :=
  mkTourState b (steps prev) (stepIndex prev) (tourKey prev).

Definition localStorage_setItem (k v : string) (w : World) : World :=
  mkWorld (tourState w) (pathname w) (<[k := v]> (localStorage w))
          (setItemLog w ++ [(k, v)]) (timers w) (navigateLog w).

Definition setTimeout (cb : TimerCallback) (ms : Z) (w : World) : World :=
  mkWorld (tourState w) (pathname w) (localStorage w) (setItemLog w)
          (timers w ++ [mkTimer cb ms]) (navigateLog w).

Section useTour.

(** The hook's parameter (its default is [INITIAL_STEPS]). *)
Variable initialSteps : list Step.

(** The router: [route from to] is [window.location.pathname] after
    [navigate(to)] was called on the page [from]. *)
Variable route : string -> string -> string.

Definition navigate (to : string) (w : World) : World :=
  mkWorld (tourState w) (route (pathname w) to) (localStorage w) (setItemLog w)
          (timers w) (navigateLog w ++ [to]).

(** The state of [useState] at mount; [now] is [Date.now()]. *)
Definition mount (now : Z) (path : string) (store : gmap string string) : World :=
  mkWorld (mkTourState false initialSteps 0 now) path store [] [] [].

Definition handleNavigation (navigateToPath : string) (w : World) : World :=
  if decide (pathname w <> navigateToPath) then
    let w1 := setTourState (withRun false) w in
    let w2 := navigate navigateToPath w1 in
    setTimeout ResumeTour 500 w2
  else w.

(** The closure scheduled by [handleNavigation]; [now] is [Date.now()] when
    it runs. *)
Definition resumeTour (now : Z) (w : World) : World :=
  setTourState (fun prev => mkTourState true (steps prev) (stepIndex prev) now) w.

Definition runCallback (cb : TimerCallback) (now : Z) (w : World) : World :=
  match cb with ResumeTour => resumeTour now w end.

(** The oldest pending timer fires (all timers carry the same delay, so
    they fire in the order they were scheduled). *)
Definition fireTimer (now : Z) (w : World) : World :=
  match timers w with
  | [] => w
  | t :: rest =>
      runCallback (callback t) now
        (mkWorld (tourState w) (pathname w) (localStorage w) (setItemLog w)
                 rest (navigateLog w))
  end.

(** The [useEffect] that triggers navigation for the current step. *)
Definition navigationEffect (w : World) : World :=
  let t := tourState w in
  if run t then
    match stepAt (steps t) (stepIndex t) with
    | Some currentStep =>
        match truthyPath (navigateTo currentStep) with
        | Some p => handleNavigation p w
        | None => w
        end
    | None => w
    end
  else w.

Definition effectiveStepsOf (startSteps : list Step) : list Step :=
  if bool_decide (0 < length startSteps) then startSteps else INITIAL_STEPS.

(** [startSteps = None] is a call without argument. *)
Definition startTour (startSteps : option (list Step)) (now : Z) (w : World) : World :=
  let effectiveSteps := effectiveStepsOf (default initialSteps startSteps) in
  let w1 := setTourState (fun _ => mkTourState false effectiveSteps 0 now) w in
  match effectiveSteps !! 0 with
  | Some firstStep =>
      match truthyPath (navigateTo firstStep) with
      | Some p =>
          if decide (pathname w1 <> p) then handleNavigation p w1
          else setTourState (withRun true) w1
      | None => setTourState (withRun true) w1
      end
  | None => w1 (* not reached: [effectiveSteps] is never empty *)
  end.

Definition nextStepIndexOf (data : CallBackProps) : Z :=
  (index data + (if decide (action data = ACTIONS.PREV) then -1 else 1))%Z.

Definition handleJoyrideCallback (data : CallBackProps) (w : World) : World :=
  if decide (status data = STATUS.FINISHED \/ status data = STATUS.SKIPPED) then
    localStorage_setItem "tourViewed" "true"
      (setTourState (fun prev => mkTourState false (steps prev) 0 (tourKey prev)) w)
  else if decide (type data = EVENTS.STEP_AFTER \/ type data = EVENTS.TARGET_NOT_FOUND) then
    let nextStepIndex := nextStepIndexOf data in
    if decide (action data = ACTIONS.CLOSE) then
      localStorage_setItem "tourViewed" "true" (setTourState (withRun false) w)
    else
      setTourState
        (fun prev => mkTourState true (steps prev) nextStepIndex (tourKey prev)) w
  else w.

Definition addSteps (newSteps : list Step) (now : Z) (w : World) : World :=
  setTourState
    (fun prev => mkTourState (run prev) (steps prev ++ newSteps) (stepIndex prev) now) w.

Definition setRun (isRunning : bool) (w : World) : World :=
  setTourState (withRun isRunning) w.

Definition setSteps (newSteps : list Step) (now : Z) (w : World) : World :=
  setTourState (fun prev => mkTourState (run prev) newSteps (stepIndex prev) now) w.

(** ** Executions *)

(** What can happen to a mounted hook: a call of one of the returned
    functions, a joyride callback, a run of the navigation effect, or the
    oldest timer firing. Operations that read the clock carry the value
    [Date.now()] returned. React runs the effect after a render in which
    [run], [stepIndex] or [steps] changed; an execution may place [EEffect]
    anywhere, which covers every such schedule. *)
Inductive Event :=
  | EStartTour (startSteps : option (list Step)) (now : Z)
  | ECallback (data : CallBackProps)
  | EAddSteps (newSteps : list Step) (now : Z)
  | ESetRun (isRunning : bool)
  | ESetSteps (newSteps : list Step) (now : Z)
  | EEffect
  | ETimer (now : Z).

Definition step (w : World) (e : Event) : World :=
  match e with
  | EStartTour s now => startTour s now w
  | ECallback d => handleJoyrideCallback d w
  | EAddSteps s now => addSteps s now w
  | ESetRun b => setRun b w
  | ESetSteps s now => setSteps s now w
  | EEffect => navigationEffect w
  | ETimer now => fireTimer now w
  end.

Definition exec (w : World) (es : list Event) : World := fold_left step es w.

End useTour.

(** ** Predicates used by the properties *)

(** [0 <= stepIndex < length(steps)]. *)
Definition inBounds (t : TourState) : Prop :=
  (0 <= stepIndex t < Z.of_nat (length (steps t)))%Z.

Definition boundWhileRunning (t : TourState) : Prop :=
  run t = true -> inBounds t.

(** The callback takes the branch that moves the index. *)
Definition advances (data : CallBackProps) : bool :=
  bool_decide (~ (status data = STATUS.FINISHED \/ status data = STATUS.SKIPPED))
  && bool_decide (type data = EVENTS.STEP_AFTER \/ type data = EVENTS.TARGET_NOT_FOUND)
  && bool_decide (action data <> ACTIONS.CLOSE).

(** Events that cannot move the index out of the step list: an advancing
    callback whose target index exists, and a [setSteps] whose list still
    contains the current index. *)
Definition safeEvent (w : World) (e : Event) : Prop :=
  match e with
  | ECallback d =>
      advances d = true ->
      (0 <= nextStepIndexOf d < Z.of_nat (length (steps (tourState w))))%Z
  | ESetSteps s _ => (stepIndex (tourState w) < Z.of_nat (length s))%Z
  | _ => True
  end.

Fixpoint safeTrace (initialSteps : list Step) (route : string -> string -> string)
    (w : World) (es : list Event) : Prop :=
  match es with
  | [] => True
  | e :: es' => safeEvent w e /\ safeTrace initialSteps route (step initialSteps route w e) es'
  end.

(** The value of [Date.now()] read by an event's operation, as carried by
    the event. *)
Definition clockReading (e : Event) : option Z :=
  match e with
  | EStartTour _ now | EAddSteps _ now | ESetSteps _ now | ETimer now => Some now
  | ECallback _ | ESetRun _ | EEffect => None
  end.

Definition clockReadings (es : list Event) : list Z := omap clockReading es.

(** Whether the event's operation executes a [tourKey: Date.now()]
    assignment in world [w]. *)
Definition assignsKey (w : World) (e : Event) : bool :=
  match e with
  | EStartTour _ _ | EAddSteps _ _ | ESetSteps _ _ => true
  | ETimer _ => bool_decide (timers w <> [])
  | ECallback _ | ESetRun _ | EEffect => false
  end.

(** The render keys assigned during an execution, in order. *)
Fixpoint assignedKeys (initialSteps : list Step) (route : string -> string -> string)
    (w : World) (es : list Event) : list Z :=
  match es with
  | [] => []
  | e :: es' =>
      let w' := step initialSteps route w e in
      (if assignsKey w e then [tourKey (tourState w')] else [])
        ++ assignedKeys initialSteps route w' es'
  end.

(** ** Concrete scenarios *)

(** A router for absolute paths: [navigate(to)] lands on [to]. *)
Definition absoluteRoute (from to : string) : string := to.

(** The demo application: the hook is mounted with its default steps on
    the dashboard page ["/"] with an empty [localStorage]. *)
Definition demoMount : World := mount INITIAL_STEPS 0 "/" ∅.

Definition demoStep (w : World) (e : Event) : World :=
  step INITIAL_STEPS absoluteRoute w e.

Definition demoExec (w : World) (es : list Event) : World :=
  exec INITIAL_STEPS absoluteRoute w es.

(** The tour has been started and is showing its first step. *)
Definition demoStarted : World := demoExec demoMount [EStartTour None 1000; EEffect].

Definition nextClicked (i : Z) : CallBackProps :=
  mkCallBack ACTIONS.NEXT i STATUS.RUNNING EVENTS.STEP_AFTER.

Definition prevClicked (i : Z) : CallBackProps :=
  mkCallBack ACTIONS.PREV i STATUS.RUNNING EVENTS.STEP_AFTER.

Definition closeClicked (i : Z) : CallBackProps :=
  mkCallBack ACTIONS.CLOSE i STATUS.RUNNING EVENTS.STEP_AFTER.

(** The user clicks Next on steps 0 to 3; the effect runs after each. *)
Definition demoAtDashboardTitle : World :=
  demoExec demoStarted
    [ECallback (nextClicked 0); EEffect; ECallback (nextClicked 1); EEffect;
     ECallback (nextClicked 2); EEffect; ECallback (nextClicked 3); EEffect].

Definition extraStep : Step := mkStep "body" "One more thing." "center" None None.

(** ** Further predicates on executions *)

Definition isTimerEvent (e : Event) : bool :=
  match e with ETimer _ => true | _ => false end.

(** The event calls one of the three operations that assign [steps]. *)
Definition editsSteps (e : Event) : bool :=
  match e with
  | EStartTour _ _ | EAddSteps _ _ | ESetSteps _ _ => true
  | ECallback _ | ESetRun _ | EEffect | ETimer _ => false
  end.

(** The navigation effect runs and the timer it scheduled fires, once for
    every clock reading of [nows]. *)
Definition resumeCycles (nows : list Z) : list Event :=
  flat_map (fun now => [EEffect; ETimer now]) nows.

(** ** The auto start of [TourProviderWrapper] (App.tsx) *)

Definition localStorage_getItem (k : string) (w : World) : option string :=
  localStorage w !! k.

(** [!v] for the result of [getItem]: [null] and the empty string are
    falsy. *)
Definition isFalsy (v : option string) : bool :=
  match v with
  | None => true
  | Some s => bool_decide (s = "")
  end.

(** The wrapper's hook (mounted by [useTour()], so with the default
    [INITIAL_STEPS]) and the delays of the pending timers that will call
    [tourHook.startTour()], oldest first. *)
Record AppWorld := mkApp {
  hookWorld : World;
  autoStartTimers : list Z;
}.

Section TourProviderWrapper.

Variable route : string -> string -> string.

(** The [useEffect] of the wrapper. *)
Definition autoStartEffect (a : AppWorld) : AppWorld :=
  let tourViewed := localStorage_getItem "tourViewed" (hookWorld a) in
  if isFalsy tourViewed then mkApp (hookWorld a) (autoStartTimers a ++ [1000%Z])
  else a.

(** The oldest pending auto-start timer fires: [tourHook.startTour()]. *)
Definition fireAutoStart (now : Z) (a : AppWorld) : AppWorld :=
  match autoStartTimers a with
  | [] => a
  | _ :: rest => mkApp (startTour INITIAL_STEPS route None now (hookWorld a)) rest
  end.

(** The navbar button: [onShowTourClick={() => tourHook.startTour()}]. *)
Definition onShowTourClick (now : Z) (a : AppWorld) : AppWorld :=
  mkApp (startTour INITIAL_STEPS route None now (hookWorld a)) (autoStartTimers a).

(** A joyride callback reaches the hook through [AppTour]'s [callback]
    prop. *)
Definition appCallback (data : CallBackProps) (a : AppWorld) : AppWorld :=
  mkApp (handleJoyrideCallback data (hookWorld a)) (autoStartTimers a).

End TourProviderWrapper.

(** ** The endpoints of [authApiSlice] *)

Module authApiSlice.

Inductive Method := POST | DELETE | PUT.

Record Request (Body : Type) := mkRequest {
  url : string;
  method : Method;
  body : option Body;
}.
Arguments mkRequest {Body} _ _ _.
Arguments url {Body} _.
Arguments method {Body} _.
Arguments body {Body} _.

Section endpoints.

(** The objects sent as request bodies. *)
Variable Body : Type.

Definition login (user : Body) : Request Body := mkRequest "/api/auth" POST (Some user).

Definition logout : Request Body := mkRequest "/api/auth" DELETE None.

Definition createUser (user : Body) : Request Body :=
  mkRequest "/api/auth/createUser" POST (Some user).

Definition changePass (pass : Body) : Request Body :=
  mkRequest "/api/auth" PUT (Some pass).

(** [id] is the text the template literal interpolates. *)
Definition deleteUser (id : string) : Request Body :=
  mkRequest ("/api/auth/" +:+ id) DELETE None.

(** A call of one of the five mutations. *)
Inductive Call :=
  | Login (user : Body)
  | Logout
  | CreateUser (user : Body)
  | ChangePass (pass : Body)
  | DeleteUser (id : string).

Definition endpointName (c : Call) : string :=
  match c with
  | Login _ => "login"
  | Logout => "logout"
  | CreateUser _ => "createUser"
  | ChangePass _ => "changePass"
  | DeleteUser _ => "deleteUser"
  end.

Definition query (c : Call) : Request Body :=
  match c with
  | Login user => login user
  | Logout => logout
  | CreateUser user => createUser user
  | ChangePass pass => changePass pass
  | DeleteUser id => deleteUser id
  end.

End endpoints.

End authApiSlice.

(** The timer scheduled by [handleNavigation]. *)
Definition resumeTimer : Timer := mkTimer ResumeTour 500.

(** ** Further scenarios *)

(** A router that sends every navigation to the login page. *)
Definition loginRedirectRoute (from to : string) : string := "/login".

Definition skipClicked (i : Z) : CallBackProps :=
  mkCallBack ACTIONS.SKIP i STATUS.SKIPPED EVENTS.STEP_AFTER.

(** The tour runs on step 6, which asks for the profile page, while the
    page shown is still the dashboard. *)
Definition demoBeforeProfile : World :=
  demoExec demoAtDashboardTitle
    [ECallback (nextClicked 4); EEffect; ECallback (nextClicked 5)].

Definition profileTitleStep : Step :=
  mkStep (data_tour "profile-title") "This is your Profile page." "bottom"
         None (Some "/profile").

(** A first visit of the demo application. *)
Definition demoApp : AppWorld := mkApp demoMount [].

(** * Properties *)

(** ** Shape of the elementary updates *)

Lemma effectiveStepsOf_nonempty (l : list Step) : effectiveStepsOf l <> [].
Proof.
  unfold effectiveStepsOf. case_bool_decide as Hlen.
  - destruct l; [simpl in Hlen; lia | discriminate].
  - discriminate.
Qed.

Lemma effectiveStepsOf_cases (l : list Step) :
  effectiveStepsOf l = match l with [] => INITIAL_STEPS | _ :: _ => l end.
Proof.
  unfold effectiveStepsOf. destruct l as [|s l]; case_bool_decide as Hlen;
    simpl in Hlen; try reflexivity; lia.
Qed.

Lemma handleNavigation_here route (p : string) (w : World) :
  pathname w = p -> handleNavigation route p w = w.
Proof.
  intros Heq. unfold handleNavigation.
  destruct (decide (pathname w <> p)) as [Hne|_]; [contradiction | reflexivity].
Qed.

Lemma handleNavigation_away route (p : string) (w : World) :
  pathname w <> p ->
  handleNavigation route p w =
    mkWorld (withRun false (tourState w)) (route (pathname w) p) (localStorage w)
            (setItemLog w) (timers w ++ [mkTimer ResumeTour 500]) (navigateLog w ++ [p]).
Proof.
  intros Hne. unfold handleNavigation.
  destruct (decide (pathname w <> p)) as [_|Heq]; [reflexivity | contradiction].
Qed.

(** ** Finishing, skipping and closing *)

(** C3. Whatever the state, a callback whose status is FINISHED or SKIPPED
    leaves [run = false] and the item [tourViewed] of [localStorage] set to
    the string [true]. *)
Theorem finished_stops_and_persists (data : CallBackProps) (w : World) :
  status data = STATUS.FINISHED \/ status data = STATUS.SKIPPED ->
  let w' := handleJoyrideCallback data w in
  run (tourState w') = false /\ localStorage w' !! "tourViewed" = Some "true".
Proof.
  intros Hst w'. subst w'. unfold handleJoyrideCallback.
  destruct (decide _) as [_|Hn]; [|contradiction].
  split; [reflexivity|]. simpl. apply lookup_insert_eq.
Qed.

Lemma finished_stops_and_persists_witness :
  run (tourState (handleJoyrideCallback
         (mkCallBack ACTIONS.NEXT 10 STATUS.FINISHED EVENTS.STEP_AFTER) demoAtDashboardTitle))
    = false
  /\ localStorage (handleJoyrideCallback
         (mkCallBack ACTIONS.NEXT 10 STATUS.FINISHED EVENTS.STEP_AFTER) demoAtDashboardTitle)
       !! "tourViewed" = Some "true".
Proof.
  apply (finished_stops_and_persists
           (mkCallBack ACTIONS.NEXT 10 STATUS.FINISHED EVENTS.STEP_AFTER)
           demoAtDashboardTitle).
  left. reflexivity.
Defined.

(** C4, as the code has it. At every step index, the close event (action
    CLOSE reported with a STEP_AFTER or TARGET_NOT_FOUND event) leaves
    [run = false] and performs exactly one [localStorage.setItem] call, which
    writes [tourViewed]. *)
Theorem close_stops_and_persists_once (data : CallBackProps) (w : World) :
  action data = ACTIONS.CLOSE ->
  type data = EVENTS.STEP_AFTER \/ type data = EVENTS.TARGET_NOT_FOUND ->
  let w' := handleJoyrideCallback data w in
  run (tourState w') = false
  /\ setItemLog w' = setItemLog w ++ [("tourViewed", "true")]
  /\ localStorage w' !! "tourViewed" = Some "true".
Proof.
  intros Hact Hty w'. subst w'. unfold handleJoyrideCallback.
  destruct (decide (status data = _ \/ _)) as [_|_].
  - repeat split. simpl. apply lookup_insert_eq.
  - destruct (decide (type data = _ \/ _)) as [_|Hn]; [|contradiction].
    destruct (decide (action data = ACTIONS.CLOSE)) as [_|Hn]; [|contradiction].
    repeat split. simpl. apply lookup_insert_eq.
Qed.

Lemma close_stops_and_persists_once_witness :
  run (tourState (handleJoyrideCallback (closeClicked 4) demoAtDashboardTitle)) = false
  /\ setItemLog (handleJoyrideCallback (closeClicked 4) demoAtDashboardTitle)
     = setItemLog demoAtDashboardTitle ++ [("tourViewed", "true")]
  /\ localStorage (handleJoyrideCallback (closeClicked 4) demoAtDashboardTitle)
       !! "tourViewed" = Some "true".
Proof.
  apply (close_stops_and_persists_once (closeClicked 4) demoAtDashboardTitle).
  - reflexivity.
  - left. reflexivity.
Defined.

(** A callback carrying CLOSE with any other event type, and a status that
    is neither FINISHED nor SKIPPED, changes nothing: it writes no flag. *)
Lemma close_other_event_ignored (data : CallBackProps) (w : World) :
  ~ (status data = STATUS.FINISHED \/ status data = STATUS.SKIPPED) ->
  ~ (type data = EVENTS.STEP_AFTER \/ type data = EVENTS.TARGET_NOT_FOUND) ->
  handleJoyrideCallback data w = w.
Proof.
  intros Hst Hty. unfold handleJoyrideCallback.
  destruct (decide (status data = _ \/ _)); [contradiction|].
  destruct (decide (type data = _ \/ _)); [contradiction|reflexivity].
Qed.

(** C4, as stated, fails. The default tour runs on step 4 and joyride
    delivers a callback with action CLOSE, status RUNNING and event type
    TOOLTIP: the hook ignores it, so the tour keeps running on step 4 and
    nothing is written to [localStorage]. *)
Lemma close_with_tooltip_event_ignored :
  let w := demoAtDashboardTitle in
  let w' := handleJoyrideCallback
              (mkCallBack ACTIONS.CLOSE 4 STATUS.RUNNING EVENTS.TOOLTIP) w in
  run (tourState w) = true
  /\ run (tourState w') = true
  /\ stepIndex (tourState w') = 4%Z
  /\ setItemLog w' = []
  /\ localStorage w' !! "tourViewed" = None.
Proof.
  intros w w'. split; [vm_compute; reflexivity|].
  split; [vm_compute; reflexivity|]. split; [vm_compute; reflexivity|].
  split; vm_compute; reflexivity.
Qed.

(** ** Target not found *)

(** C7. With the same action, index and status, a TARGET_NOT_FOUND event
    and a STEP_AFTER event lead to the same world; when the callback
    advances, the index becomes the callback's index plus one (minus one
    for PREV) with [run = true], and no timer, navigation or storage write
    is added. *)
Theorem target_not_found_as_step_after
    (a : ACTIONS.t) (i : Z) (s : STATUS.t) (w : World) :
  handleJoyrideCallback (mkCallBack a i s EVENTS.TARGET_NOT_FOUND) w
  = handleJoyrideCallback (mkCallBack a i s EVENTS.STEP_AFTER) w
  /\ (advances (mkCallBack a i s EVENTS.TARGET_NOT_FOUND) = true ->
      handleJoyrideCallback (mkCallBack a i s EVENTS.TARGET_NOT_FOUND) w
      = setTourState
          (fun prev => mkTourState true (steps prev)
                         (i + (if decide (a = ACTIONS.PREV) then -1 else 1))%Z
                         (tourKey prev)) w).
Proof.
  split.
  - unfold handleJoyrideCallback; simpl.
    repeat case_decide; try reflexivity; exfalso; intuition congruence.
  - unfold advances, handleJoyrideCallback, nextStepIndexOf; simpl. intros Hadv.
    apply andb_prop in Hadv as [Hadv Hclose]. apply andb_prop in Hadv as [Hst _].
    apply bool_decide_eq_true in Hst, Hclose.
    repeat case_decide; try reflexivity; exfalso; intuition congruence.
Qed.

Lemma target_not_found_as_step_after_witness :
  handleJoyrideCallback
    (mkCallBack ACTIONS.NEXT 4 STATUS.RUNNING EVENTS.TARGET_NOT_FOUND) demoAtDashboardTitle
  = setTourState
      (fun prev => mkTourState true (steps prev) 5 (tourKey prev)) demoAtDashboardTitle.
Proof.
  apply (proj2 (target_not_found_as_step_after
                  ACTIONS.NEXT 4 STATUS.RUNNING demoAtDashboardTitle)).
  reflexivity.
Defined.

(** ** Adding steps *)

(** C8. [addSteps extra] appends [extra] to the old steps and leaves [run]
    and [stepIndex] as they were. *)
Theorem addSteps_appends (extra : list Step) (now : Z) (w : World) :
  let w' := addSteps extra now w in
  steps (tourState w') = steps (tourState w) ++ extra
  /\ run (tourState w') = run (tourState w)
  /\ stepIndex (tourState w') = stepIndex (tourState w).
Proof. repeat split. Qed.

(** ** Starting the tour *)

Lemma startTour_tourState initialSteps route (startSteps : option (list Step))
    (now : Z) (w : World) :
  exists b : bool,
    tourState (startTour initialSteps route startSteps now w)
    = mkTourState b (effectiveStepsOf (default initialSteps startSteps)) 0 now.
Proof.
  unfold startTour.
  destruct (effectiveStepsOf (default initialSteps startSteps) !! 0) as [firstStep|];
    [|eexists; reflexivity].
  destruct (truthyPath (navigateTo firstStep)) as [p|]; [|eexists; reflexivity].
  case_decide as Hp; [|eexists; reflexivity].
  rewrite handleNavigation_away by exact Hp. eexists; reflexivity.
Qed.

(** C5. [startTour] sets [stepIndex] to 0 and [steps] to the given list (the
    hook's [initialSteps] when called without argument), or to
    [INITIAL_STEPS] when that list is empty. If the first of these steps has
    a (truthy) [navigateTo] different from the current pathname, the call
    leaves [run = false], navigates there and schedules the 500 ms timer
    whose callback sets [run = true]; otherwise it leaves [run = true] and
    neither navigates nor schedules anything. *)
Theorem startTour_resets_then_activates initialSteps route
    (startSteps : option (list Step)) (now : Z) (w : World) :
  let given := default initialSteps startSteps in
  let w' := startTour initialSteps route startSteps now w in
  steps (tourState w') = match given with [] => INITIAL_STEPS | _ :: _ => given end
  /\ stepIndex (tourState w') = 0%Z
  /\ exists firstStep : Step,
       steps (tourState w') !! 0 = Some firstStep
       /\ match truthyPath (navigateTo firstStep) with
          | Some p =>
              if decide (pathname w <> p) then
                run (tourState w') = false
                /\ navigateLog w' = navigateLog w ++ [p]
                /\ pathname w' = route (pathname w) p
                /\ timers w' = timers w ++ [mkTimer ResumeTour 500]
                /\ forall now' : Z,
                     run (tourState (runCallback ResumeTour now' w')) = true
              else
                run (tourState w') = true /\ timers w' = timers w
                /\ navigateLog w' = navigateLog w /\ pathname w' = pathname w
          | None =>
              run (tourState w') = true /\ timers w' = timers w
              /\ navigateLog w' = navigateLog w /\ pathname w' = pathname w
          end.
Proof.
  intros given w'.
  pose proof (effectiveStepsOf_cases given) as Hcases.
  pose proof (effectiveStepsOf_nonempty given) as Hne.
  assert (Hw' : w' = startTour initialSteps route startSteps now w) by reflexivity.
  unfold startTour in Hw'. fold given in Hw'.
  clearbody w'. clearbody given.
  destruct (effectiveStepsOf given) as [|firstStep rest]; [contradiction|].
  simpl in Hw'. subst w'.
  rewrite <- Hcases.
  destruct (truthyPath (navigateTo firstStep)) as [p|] eqn:Hpath.
  - destruct (decide (pathname w <> p)) as [Hp|Hp] eqn:Hdec.
    + rewrite handleNavigation_away by exact Hp. simpl.
      split; [reflexivity|]. split; [reflexivity|].
      exists firstStep. split; [reflexivity|]. rewrite Hpath, Hdec.
      repeat split.
    + simpl. split; [reflexivity|]. split; [reflexivity|].
      exists firstStep. split; [reflexivity|]. rewrite Hpath, Hdec.
      repeat split.
  - simpl. split; [reflexivity|]. split; [reflexivity|].
    exists firstStep. split; [reflexivity|]. rewrite Hpath.
    repeat split.
Qed.

(** C6. [startTour] called with the empty list as override leaves a running
    tour whose steps are [INITIAL_STEPS], which is not the empty list; the
    navigation effect that follows leaves it running. *)
Theorem startTour_empty_override initialSteps route (now : Z) (w : World) :
  let w' := startTour initialSteps route (Some []) now w in
  steps (tourState w') = INITIAL_STEPS
  /\ run (tourState w') = true
  /\ steps (tourState w') <> []
  /\ navigationEffect route w' = w'.
Proof.
  intros w'. split; [reflexivity|]. split; [reflexivity|].
  split; [discriminate|reflexivity].
Qed.

(** ** Navigation *)

(** C10. When the current pathname already equals the requested path,
    [handleNavigation] returns the world unchanged: [run], the pathname, the
    pending timers and [tourKey] are as before; hence the navigation effect
    on a step whose [navigateTo] is the current pathname changes nothing and
    [tourKey] is not regenerated. *)
Theorem handleNavigation_noop_on_same_page route (p : string) (w : World) :
  pathname w = p ->
  handleNavigation route p w = w
  /\ forall currentStep : Step,
       stepAt (steps (tourState w)) (stepIndex (tourState w)) = Some currentStep ->
       navigateTo currentStep = Some p ->
       navigationEffect route w = w
       /\ tourKey (tourState (navigationEffect route w)) = tourKey (tourState w)
       /\ timers (navigationEffect route w) = timers w.
Proof.
  intros Hp. split; [apply handleNavigation_here, Hp|].
  intros currentStep Hat Hnav.
  assert (Heff : navigationEffect route w = w).
  { unfold navigationEffect. rewrite Hat, Hnav.
    destruct (run (tourState w)); [|reflexivity].
    unfold truthyPath. case_decide; [reflexivity|].
    apply handleNavigation_here, Hp. }
  rewrite Heff. repeat split.
Qed.

Lemma handleNavigation_noop_on_same_page_witness :
  handleNavigation absoluteRoute "/" demoAtDashboardTitle = demoAtDashboardTitle
  /\ forall currentStep : Step,
       stepAt (steps (tourState demoAtDashboardTitle))
              (stepIndex (tourState demoAtDashboardTitle)) = Some currentStep ->
       navigateTo currentStep = Some "/" ->
       navigationEffect absoluteRoute demoAtDashboardTitle = demoAtDashboardTitle
       /\ tourKey (tourState (navigationEffect absoluteRoute demoAtDashboardTitle))
          = tourKey (tourState demoAtDashboardTitle)
       /\ timers (navigationEffect absoluteRoute demoAtDashboardTitle)
          = timers demoAtDashboardTitle.
Proof.
  apply (handleNavigation_noop_on_same_page absoluteRoute "/" demoAtDashboardTitle).
  reflexivity.
Defined.

(** ** Timers *)

Lemma fireTimer_pending (now : Z) (t : Timer) (rest : list Timer) (w : World) :
  timers w = t :: rest ->
  fireTimer now w =
    mkWorld (mkTourState true (steps (tourState w)) (stepIndex (tourState w)) now)
            (pathname w) (localStorage w) (setItemLog w) rest (navigateLog w).
Proof.
  intros Ht. unfold fireTimer. rewrite Ht. destruct t as [[] d]. reflexivity.
Qed.

Lemma fireTimer_idle (now : Z) (w : World) : timers w = [] -> fireTimer now w = w.
Proof. intros Ht. unfold fireTimer. rewrite Ht. reflexivity. Qed.

(** Firing every pending timer: the tour runs, and its key is the clock
    reading of the last firing. *)
Lemma exec_timers_drain initialSteps route (nows : list Z) :
  forall (now : Z) (w : World),
    length (timers w) = S (length nows) ->
    let w'' := exec initialSteps route w (map ETimer (nows ++ [now])) in
    tourState w'' = mkTourState true (steps (tourState w)) (stepIndex (tourState w)) now
    /\ timers w'' = []
    /\ pathname w'' = pathname w
    /\ navigateLog w'' = navigateLog w.
Proof.
  induction nows as [|n nows IH]; intros now w Hlen.
  - destruct (timers w) as [|t [|t' rest]] eqn:Ht; simpl in Hlen; try lia.
    simpl. rewrite (fireTimer_pending now t [] w Ht). repeat split.
  - destruct (timers w) as [|t rest] eqn:Ht; simpl in Hlen; [lia|].
    simpl. rewrite (fireTimer_pending n t rest w Ht).
    match goal with |- context [exec _ _ ?w1 _] => specialize (IH now w1) end.
    simpl in IH. apply IH. lia.
Qed.

(** ** Navigation to another page *)

(** C2, as the code has it. When the tour runs on a step whose [navigateTo]
    is truthy and differs from the current pathname, the navigation effect
    pauses the tour, calls [navigate] with that path and schedules one timer
    of 500 ms, leaving [tourKey] untouched; once the pending timers have
    fired, [run] is [true] and [tourKey] is the clock reading taken when the
    scheduled timer fired. *)
Theorem navigation_to_other_page_regenerates_key initialSteps route
    (w : World) (currentStep : Step) (p : string) :
  run (tourState w) = true ->
  stepAt (steps (tourState w)) (stepIndex (tourState w)) = Some currentStep ->
  truthyPath (navigateTo currentStep) = Some p ->
  pathname w <> p ->
  let w' := navigationEffect route w in
  run (tourState w') = false
  /\ tourKey (tourState w') = tourKey (tourState w)
  /\ pathname w' = route (pathname w) p
  /\ navigateLog w' = navigateLog w ++ [p]
  /\ timers w' = timers w ++ [mkTimer ResumeTour 500]
  /\ forall (nows : list Z) (now : Z),
       length nows = length (timers w) ->
       let w'' := exec initialSteps route w' (map ETimer (nows ++ [now])) in
       run (tourState w'') = true /\ tourKey (tourState w'') = now /\ timers w'' = [].
Proof.
  intros Hrun Hat Hpath Hne w'.
  assert (Hw' : w' = handleNavigation route p w).
  { subst w'. unfold navigationEffect. rewrite Hrun, Hat, Hpath. reflexivity. }
  rewrite handleNavigation_away in Hw' by exact Hne. clearbody w'. subst w'. simpl.
  repeat split.
  - match goal with |- context [exec _ _ ?w1 _] =>
      destruct (exec_timers_drain initialSteps route nows now w1) as (Hts & _)
    end; [simpl; rewrite length_app; simpl; lia|].
    rewrite Hts. reflexivity.
  - match goal with |- context [exec _ _ ?w1 _] =>
      destruct (exec_timers_drain initialSteps route nows now w1) as (Hts & _)
    end; [simpl; rewrite length_app; simpl; lia|].
    rewrite Hts. reflexivity.
  - match goal with |- context [exec _ _ ?w1 _] =>
      destruct (exec_timers_drain initialSteps route nows now w1) as (_ & Ht & _)
    end; [simpl; rewrite length_app; simpl; lia|].
    exact Ht.
Qed.

Lemma navigation_to_other_page_regenerates_key_witness :
  let w := demoExec demoAtDashboardTitle
             [ECallback (nextClicked 4); EEffect; ECallback (nextClicked 5)] in
  let w' := navigationEffect absoluteRoute w in
  run (tourState w') = false
  /\ tourKey (tourState w') = tourKey (tourState w)
  /\ pathname w' = "/profile"
  /\ navigateLog w' = navigateLog w ++ ["/profile"]
  /\ timers w' = timers w ++ [mkTimer ResumeTour 500]
  /\ forall (nows : list Z) (now : Z),
       length nows = length (timers w) ->
       let w'' := exec INITIAL_STEPS absoluteRoute w' (map ETimer (nows ++ [now])) in
       run (tourState w'') = true /\ tourKey (tourState w'') = now /\ timers w'' = [].
Proof.
  intros w.
  apply (navigation_to_other_page_regenerates_key INITIAL_STEPS absoluteRoute w
           (mkStep (data_tour "profile-title") "This is your Profile page." "bottom"
                   None (Some "/profile"))
           "/profile").
  - vm_compute. reflexivity.
  - vm_compute. reflexivity.
  - vm_compute. reflexivity.
  - vm_compute. discriminate.
Defined.

(** C2, as stated, fails. In the demo application the default tour is
    started on the page ["/"] and the user clicks Next four times. The tour
    then runs on step 4, which carries [navigateTo = "/"]: the navigation
    effect changes nothing, no timer is pending, and [tourKey] is still the
    key assigned by [startTour]. *)
Lemma navigation_step_on_same_page_keeps_key :
  let w := demoAtDashboardTitle in
  run (tourState w) = true
  /\ (exists currentStep : Step,
        stepAt (steps (tourState w)) (stepIndex (tourState w)) = Some currentStep
        /\ navigateTo currentStep = Some "/")
  /\ navigationEffect absoluteRoute w = w
  /\ run (tourState (navigationEffect absoluteRoute w)) = true
  /\ navigateLog (navigationEffect absoluteRoute w) = []
  /\ timers (navigationEffect absoluteRoute w) = []
  /\ forall now : Z,
       tourKey (tourState (fireTimer now (navigationEffect absoluteRoute w))) = 1000%Z.
Proof.
  intros w. split; [vm_compute; reflexivity|].
  split; [eexists; split; vm_compute; reflexivity|].
  assert (Heff : navigationEffect absoluteRoute w = w) by (vm_compute; reflexivity).
  rewrite Heff. split; [reflexivity|].
  split; [vm_compute; reflexivity|]. split; [vm_compute; reflexivity|].
  split; [vm_compute; reflexivity|].
  intros now. rewrite fireTimer_idle by (vm_compute; reflexivity).
  vm_compute. reflexivity.
Qed.

(** ** The index bound *)

Lemma navigationEffect_position route (w : World) :
  steps (tourState (navigationEffect route w)) = steps (tourState w)
  /\ stepIndex (tourState (navigationEffect route w)) = stepIndex (tourState w)
  /\ tourKey (tourState (navigationEffect route w)) = tourKey (tourState w).
Proof.
  unfold navigationEffect.
  destruct (run (tourState w)); [|repeat split].
  destruct (stepAt _ _) as [currentStep|]; [|repeat split].
  destruct (truthyPath _) as [p|]; [|repeat split].
  unfold handleNavigation. case_decide; repeat split.
Qed.

Lemma fireTimer_position (now : Z) (w : World) :
  steps (tourState (fireTimer now w)) = steps (tourState w)
  /\ stepIndex (tourState (fireTimer now w)) = stepIndex (tourState w).
Proof.
  destruct (timers w) as [|t rest] eqn:Ht.
  - rewrite fireTimer_idle by exact Ht. split; reflexivity.
  - rewrite (fireTimer_pending now t rest w Ht). split; reflexivity.
Qed.

Lemma startTour_inBounds initialSteps route (startSteps : option (list Step))
    (now : Z) (w : World) :
  inBounds (tourState (startTour initialSteps route startSteps now w)).
Proof.
  destruct (startTour_tourState initialSteps route startSteps now w) as [b ->].
  pose proof (effectiveStepsOf_nonempty (default initialSteps startSteps)) as Hne.
  unfold inBounds. simpl.
  destruct (effectiveStepsOf (default initialSteps startSteps)); [contradiction|].
  simpl. lia.
Qed.

(** An advancing callback sets the index to the callback's index plus or
    minus one, so it keeps the bound exactly when that index exists. *)
Lemma advancing_callback_inBounds (data : CallBackProps) (w : World) :
  advances data = true ->
  run (tourState (handleJoyrideCallback data w)) = true
  /\ stepIndex (tourState (handleJoyrideCallback data w)) = nextStepIndexOf data
  /\ (inBounds (tourState (handleJoyrideCallback data w))
      <-> (0 <= nextStepIndexOf data < Z.of_nat (length (steps (tourState w))))%Z).
Proof.
  unfold advances. intros Hadv.
  apply andb_prop in Hadv as [Hadv Hclose]. apply andb_prop in Hadv as [Hst Hty].
  apply bool_decide_eq_true in Hst, Hty, Hclose.
  unfold handleJoyrideCallback, inBounds.
  repeat case_decide; try contradiction. simpl.
  split; [reflexivity|]. split; [reflexivity|]. split; intros Hb; exact Hb.
Qed.

Lemma step_preserves_inBounds initialSteps route (w : World) (e : Event) :
  inBounds (tourState w) -> safeEvent w e ->
  inBounds (tourState (step initialSteps route w e)).
Proof.
  intros Hin Hsafe. destruct e as [s now|d|s now| b |s now | |now]; simpl in *.
  - apply startTour_inBounds.
  - destruct (advances d) eqn:Hadv.
    + apply (advancing_callback_inBounds d w Hadv), Hsafe. reflexivity.
    + unfold advances in Hadv. unfold handleJoyrideCallback, inBounds in *.
      repeat case_decide; simpl; try assumption; try lia.
      all: exfalso; rewrite !bool_decide_eq_true_2 in Hadv by assumption; discriminate.
  - unfold inBounds in *. simpl. rewrite length_app. lia.
  - exact Hin.
  - unfold inBounds in *. simpl. lia.
  - unfold inBounds in *.
    destruct (navigationEffect_position route w) as (-> & -> & _). exact Hin.
  - unfold inBounds in *.
    destruct (fireTimer_position now w) as (-> & ->). exact Hin.
Qed.

Lemma exec_preserves_inBounds initialSteps route (es : list Event) :
  forall w : World,
    inBounds (tourState w) -> safeTrace initialSteps route w es ->
    inBounds (tourState (exec initialSteps route w es)).
Proof.
  induction es as [|e es IH]; intros w Hin Hsafe; [exact Hin|].
  destruct Hsafe as [He Hes]. simpl. apply IH; [|exact Hes].
  apply step_preserves_inBounds; assumption.
Qed.

(** C1, as the code has it. The hook does not clamp the index. After a call
    of [startTour], [0 <= stepIndex < length steps] holds (so also while
    [run] is true) and it keeps holding along every execution in which each
    advancing callback targets an existing index and each [setSteps] list
    still contains the current index. *)
Theorem index_bound_after_startTour initialSteps route
    (startSteps : option (list Step)) (now : Z) (w : World) (es : list Event) :
  safeTrace initialSteps route (startTour initialSteps route startSteps now w) es ->
  inBounds (tourState (exec initialSteps route
                         (startTour initialSteps route startSteps now w) es))
  /\ boundWhileRunning (tourState (exec initialSteps route
                         (startTour initialSteps route startSteps now w) es)).
Proof.
  intros Hsafe.
  assert (Hin : inBounds (tourState (exec initialSteps route
                   (startTour initialSteps route startSteps now w) es))).
  { apply exec_preserves_inBounds; [apply startTour_inBounds | exact Hsafe]. }
  split; [exact Hin | intros _; exact Hin].
Qed.

Lemma index_bound_after_startTour_witness :
  let es := [EEffect; ECallback (nextClicked 0); EEffect; ECallback (prevClicked 1);
             EEffect; EAddSteps [extraStep] 2000] in
  inBounds (tourState (demoExec (startTour INITIAL_STEPS absoluteRoute None 1000 demoMount) es))
  /\ boundWhileRunning
       (tourState (demoExec (startTour INITIAL_STEPS absoluteRoute None 1000 demoMount) es)).
Proof.
  intros es.
  apply (index_bound_after_startTour INITIAL_STEPS absoluteRoute None 1000 demoMount es).
  simpl. repeat split; vm_compute; intros Hc; discriminate Hc.
Defined.

(** C1, as stated, fails. The default tour is running on its first step,
    within the bound. A callback reporting action PREV at index 0 leaves
    [run = true] with [stepIndex = -1]; a callback reporting action NEXT at
    the last index 10 with status RUNNING leaves [run = true] with
    [stepIndex = 11], the length of the step list. *)
Lemma callback_moves_index_out_of_bounds :
  run (tourState demoStarted) = true
  /\ inBounds (tourState demoStarted)
  /\ (let w' := handleJoyrideCallback (prevClicked 0) demoStarted in
      run (tourState w') = true
      /\ stepIndex (tourState w') = (-1)%Z
      /\ ~ boundWhileRunning (tourState w'))
  /\ (let w' := handleJoyrideCallback (nextClicked 10) demoStarted in
      run (tourState w') = true
      /\ stepIndex (tourState w') = 11%Z
      /\ length (steps (tourState w')) = 11
      /\ ~ boundWhileRunning (tourState w')).
Proof.
  split; [vm_compute; reflexivity|].
  split; [unfold inBounds; vm_compute; split; [intros Hc; discriminate Hc | reflexivity]|].
  split.
  - intros w'. split; [vm_compute; reflexivity|]. split; [vm_compute; reflexivity|].
    intros Hb. assert (Hr : run (tourState w') = true) by (vm_compute; reflexivity).
    destruct (Hb Hr) as [Hlo _]. vm_compute in Hlo. apply Hlo. reflexivity.
  - intros w'. split; [vm_compute; reflexivity|]. split; [vm_compute; reflexivity|].
    split; [vm_compute; reflexivity|].
    intros Hb. assert (Hr : run (tourState w') = true) by (vm_compute; reflexivity).
    destruct (Hb Hr) as [_ Hhi]. vm_compute in Hhi. discriminate Hhi.
Qed.

(** ** The render key *)

Lemma handleJoyrideCallback_tourKey (data : CallBackProps) (w : World) :
  tourKey (tourState (handleJoyrideCallback data w)) = tourKey (tourState w).
Proof. unfold handleJoyrideCallback. repeat case_decide; reflexivity. Qed.

(** An operation without a [tourKey] assignment keeps the key. *)
Lemma step_keeps_key initialSteps route (w : World) (e : Event) :
  assignsKey w e = false ->
  tourKey (tourState (step initialSteps route w e)) = tourKey (tourState w).
Proof.
  destruct e as [s now|d|s now| b |s now | |now]; simpl; try discriminate; intros Ha.
  - apply handleJoyrideCallback_tourKey.
  - reflexivity.
  - apply navigationEffect_position.
  - apply bool_decide_eq_false in Ha.
    rewrite fireTimer_idle; [reflexivity|].
    destruct (timers w); [reflexivity|]. exfalso. apply Ha. discriminate.
Qed.

(** An operation with a [tourKey] assignment stores the clock reading. *)
Lemma step_assigns_reading initialSteps route (w : World) (e : Event) :
  assignsKey w e = true ->
  clockReading e = Some (tourKey (tourState (step initialSteps route w e))).
Proof.
  destruct e as [s now|d|s now| b |s now | |now]; simpl; try discriminate; intros Ha.
  - destruct (startTour_tourState initialSteps route s now w) as [b ->]. reflexivity.
  - reflexivity.
  - reflexivity.
  - apply bool_decide_eq_true in Ha.
    destruct (timers w) as [|t rest] eqn:Ht; [contradiction|].
    rewrite (fireTimer_pending now t rest w Ht). reflexivity.
Qed.

Lemma assignedKeys_sublist initialSteps route (es : list Event) :
  forall w : World,
    assignedKeys initialSteps route w es `sublist_of` clockReadings es.
Proof.
  induction es as [|e es IH]; intros w; [constructor|].
  simpl. unfold clockReadings. simpl. fold (clockReadings es).
  destruct (assignsKey w e) eqn:Ha.
  - rewrite (step_assigns_reading initialSteps route w e Ha). simpl.
    apply sublist_skip, IH.
  - simpl. destruct (clockReading e); [apply sublist_cons|]; apply IH.
Qed.

Lemma last_cons_default (l : list Z) :
  forall x d d' : Z, List.last (x :: l) d = List.last (x :: l) d'.
Proof.
  induction l as [|y l IH]; intros x d d'; [reflexivity|].
  change (List.last (y :: l) d = List.last (y :: l) d'). apply IH.
Qed.

(** The key held at the end of an execution is the last one assigned. *)
Lemma tourKey_last_assigned initialSteps route (es : list Event) :
  forall w : World,
    tourKey (tourState (exec initialSteps route w es))
    = List.last (assignedKeys initialSteps route w es) (tourKey (tourState w)).
Proof.
  induction es as [|e es IH]; intros w; [reflexivity|].
  simpl. rewrite IH. destruct (assignsKey w e) eqn:Ha.
  - simpl. destruct (assignedKeys _ _ _ es); [reflexivity|apply last_cons_default].
  - simpl. rewrite (step_keeps_key initialSteps route w e Ha). reflexivity.
Qed.

Lemma StronglySorted_sublist_of (R : Z -> Z -> Prop) (l k : list Z) :
  l `sublist_of` k -> StronglySorted R k -> StronglySorted R l.
Proof.
  induction 1 as [|x l k Hsub IH|x l k Hsub IH]; intros Hk.
  - constructor.
  - apply StronglySorted_inv in Hk as [Hk Hx]. constructor; [apply IH, Hk|].
    rewrite Forall_forall in *. intros y Hy. apply Hx.
    eapply elem_of_sublist; eauto.
  - apply StronglySorted_inv in Hk as [Hk _]. apply IH, Hk.
Qed.

(** C9, as the code has it. Every key assigned is a clock reading, in the
    order the clock was read: if the readings never go back (starting from
    the key held before), no assigned key is smaller than an earlier one,
    and if each reading is greater than all earlier ones, so is each
    assigned key. *)
Theorem render_key_follows_clock initialSteps route (w : World) (es : list Event) :
  (StronglySorted Z.le (tourKey (tourState w) :: clockReadings es) ->
   StronglySorted Z.le (tourKey (tourState w) :: assignedKeys initialSteps route w es))
  /\ (StronglySorted Z.lt (tourKey (tourState w) :: clockReadings es) ->
      StronglySorted Z.lt (tourKey (tourState w) :: assignedKeys initialSteps route w es)).
Proof.
  split; apply StronglySorted_sublist_of, sublist_skip, assignedKeys_sublist.
Qed.

Lemma render_key_follows_clock_witness :
  let es := [EStartTour None 1000; EEffect; EAddSteps [extraStep] 2000] in
  StronglySorted Z.lt
    (tourKey (tourState demoMount) :: assignedKeys INITIAL_STEPS absoluteRoute demoMount es).
Proof.
  intros es.
  apply (proj2 (render_key_follows_clock INITIAL_STEPS absoluteRoute demoMount es)).
  vm_compute. repeat constructor.
Defined.

(** C9, as stated, fails. [startTour] and [addSteps] called within the same
    millisecond read the same clock value 1000: the clock has not gone back,
    yet the second key assigned equals the first. *)
Lemma same_millisecond_keys_repeat :
  let es := [EStartTour None 1000; EAddSteps [extraStep] 1000] in
  StronglySorted Z.le (tourKey (tourState demoMount) :: clockReadings es)
  /\ assignedKeys INITIAL_STEPS absoluteRoute demoMount es = [1000; 1000]%Z
  /\ ~ StronglySorted Z.lt
         (tourKey (tourState demoMount)
            :: assignedKeys INITIAL_STEPS absoluteRoute demoMount es).
Proof.
  intros es. split; [|split].
  - vm_compute. repeat constructor; intros Hc; discriminate Hc.
  - vm_compute. reflexivity.
  - assert (Hk : assignedKeys INITIAL_STEPS absoluteRoute demoMount es = [1000; 1000]%Z)
      by (vm_compute; reflexivity).
    rewrite Hk. intros Hs.
    apply StronglySorted_inv in Hs as [Hs _].
    apply StronglySorted_inv in Hs as [_ Hs].
    apply Forall_inv in Hs. lia.
Qed.

(** * Further properties of the hook *)

(** ** What the hook writes to [localStorage] *)

Lemma handleNavigation_storage route (p : string) (w : World) :
  localStorage (handleNavigation route p w) = localStorage w
  /\ setItemLog (handleNavigation route p w) = setItemLog w.
Proof. unfold handleNavigation. case_decide; split; reflexivity. Qed.

Lemma navigationEffect_storage route (w : World) :
  localStorage (navigationEffect route w) = localStorage w
  /\ setItemLog (navigationEffect route w) = setItemLog w.
Proof.
  unfold navigationEffect.
  destruct (run (tourState w)); [|split; reflexivity].
  destruct (stepAt _ _) as [currentStep|]; [|split; reflexivity].
  destruct (truthyPath _) as [p|]; [|split; reflexivity].
  apply handleNavigation_storage.
Qed.

Lemma startTour_storage initialSteps route (s : option (list Step)) (now : Z) (w : World) :
  localStorage (startTour initialSteps route s now w) = localStorage w
  /\ setItemLog (startTour initialSteps route s now w) = setItemLog w.
Proof.
  unfold startTour.
  destruct (effectiveStepsOf (default initialSteps s) !! 0) as [firstStep|];
    [|split; reflexivity].
  destruct (truthyPath (navigateTo firstStep)) as [p|]; [|split; reflexivity].
  case_decide; [|split; reflexivity].
  match goal with |- context [handleNavigation route p ?w1] =>
    destruct (handleNavigation_storage route p w1) as [-> ->] end.
  split; reflexivity.
Qed.

(** One operation either leaves the storage alone or performs the single
    write of the seen flag. *)
Lemma step_storage initialSteps route (w : World) (e : Event) :
  (localStorage (step initialSteps route w e) = localStorage w
   /\ setItemLog (step initialSteps route w e) = setItemLog w)
  \/ (localStorage (step initialSteps route w e) = <["tourViewed" := "true"]> (localStorage w)
      /\ setItemLog (step initialSteps route w e) = setItemLog w ++ [("tourViewed", "true")]).
Proof.
  destruct e as [s now|d|s now| b |s now | |now]; simpl.
  - left. apply startTour_storage.
  - unfold handleJoyrideCallback. repeat case_decide; simpl; auto.
  - left. split; reflexivity.
  - left. split; reflexivity.
  - left. split; reflexivity.
  - left. apply navigationEffect_storage.
  - left. unfold fireTimer. destruct (timers w) as [|[[] d] rest]; split; reflexivity.
Qed.

Lemma exec_storage initialSteps route (es : list Event) :
  forall w : World,
    exists n : nat,
      setItemLog (exec initialSteps route w es)
      = setItemLog w ++ replicate n ("tourViewed", "true")
      /\ localStorage (exec initialSteps route w es)
         = match n with
           | O => localStorage w
           | S _ => <["tourViewed" := "true"]> (localStorage w)
           end.
Proof.
  induction es as [|e es IH]; intros w.
  - exists 0. simpl. rewrite app_nil_r. split; reflexivity.
  - simpl. destruct (IH (step initialSteps route w e)) as (n & Hlog & Hst).
    destruct (step_storage initialSteps route w e) as [[Hs Hl]|[Hs Hl]].
    + exists n. rewrite Hlog, Hst, Hs, Hl. split; reflexivity.
    + exists (S n). rewrite Hlog, Hst, Hs, Hl. split.
      * rewrite <- app_assoc. reflexivity.
      * destruct n; [reflexivity|]. apply insert_insert_eq.
Qed.

(** X1. Along every execution, every [localStorage.setItem] call of the
    hook writes the string [true] under [tourViewed]: the log of writes
    grows by some number [n] of such entries, and the storage is unchanged
    when [n = 0] and is the old storage with that one item set otherwise.
    The hook never removes the flag and never touches another key. *)
Theorem hook_writes_only_seen_flag initialSteps route (w : World) (es : list Event) :
  exists n : nat,
    setItemLog (exec initialSteps route w es)
    = setItemLog w ++ replicate n ("tourViewed", "true")
    /\ localStorage (exec initialSteps route w es)
       = match n with
         | O => localStorage w
         | S _ => <["tourViewed" := "true"]> (localStorage w)
         end.
Proof. apply exec_storage. Qed.

Lemma exec_keeps_seen_flag initialSteps route (w : World) (es : list Event) :
  localStorage w !! "tourViewed" = Some "true" ->
  localStorage (exec initialSteps route w es) !! "tourViewed" = Some "true".
Proof.
  intros Hflag. destruct (exec_storage initialSteps route es w) as (n & _ & ->).
  destruct n; [exact Hflag | apply lookup_insert_eq].
Qed.

(** ** Timers and navigations *)

Lemma handleNavigation_timers route (p : string) (w : World) :
  (timers (handleNavigation route p w) = timers w
   /\ navigateLog (handleNavigation route p w) = navigateLog w)
  \/ (timers (handleNavigation route p w) = timers w ++ [resumeTimer]
      /\ navigateLog (handleNavigation route p w) = navigateLog w ++ [p]).
Proof. unfold handleNavigation. case_decide; [right|left]; split; reflexivity. Qed.

Lemma navigationEffect_timers route (w : World) :
  (timers (navigationEffect route w) = timers w
   /\ navigateLog (navigationEffect route w) = navigateLog w)
  \/ (exists p, timers (navigationEffect route w) = timers w ++ [resumeTimer]
      /\ navigateLog (navigationEffect route w) = navigateLog w ++ [p]).
Proof.
  unfold navigationEffect.
  destruct (run (tourState w)); [|left; split; reflexivity].
  destruct (stepAt _ _) as [currentStep|]; [|left; split; reflexivity].
  destruct (truthyPath _) as [p|]; [|left; split; reflexivity].
  destruct (handleNavigation_timers route p w) as [Hk|Hk]; [left; exact Hk|right; eauto].
Qed.

Lemma startTour_timers initialSteps route (s : option (list Step)) (now : Z) (w : World) :
  (timers (startTour initialSteps route s now w) = timers w
   /\ navigateLog (startTour initialSteps route s now w) = navigateLog w)
  \/ (exists p, timers (startTour initialSteps route s now w) = timers w ++ [resumeTimer]
      /\ navigateLog (startTour initialSteps route s now w) = navigateLog w ++ [p]).
Proof.
  unfold startTour.
  destruct (effectiveStepsOf (default initialSteps s) !! 0) as [firstStep|];
    [|left; split; reflexivity].
  destruct (truthyPath (navigateTo firstStep)) as [p|]; [|left; split; reflexivity].
  case_decide; [|left; split; reflexivity].
  match goal with |- context [handleNavigation route p ?w1] =>
    destruct (handleNavigation_timers route p w1) as [Hk|Hk] end;
    [left; exact Hk|right; eauto].
Qed.

(** An operation other than a timer firing keeps the pending timers and
    adds at most one, together with one [navigate] call. *)
Lemma step_timers initialSteps route (w : World) (e : Event) :
  isTimerEvent e = false ->
  (timers (step initialSteps route w e) = timers w
   /\ navigateLog (step initialSteps route w e) = navigateLog w)
  \/ (exists p, timers (step initialSteps route w e) = timers w ++ [resumeTimer]
      /\ navigateLog (step initialSteps route w e) = navigateLog w ++ [p]).
Proof.
  destruct e as [s now|d|s now| b |s now | |now]; simpl; try discriminate; intros _.
  - apply startTour_timers.
  - left. unfold handleJoyrideCallback. repeat case_decide; split; reflexivity.
  - left. split; reflexivity.
  - left. split; reflexivity.
  - left. split; reflexivity.
  - apply navigationEffect_timers.
Qed.

Lemma fireTimer_timers (now : Z) (w : World) :
  timers (fireTimer now w) = tail (timers w)
  /\ navigateLog (fireTimer now w) = navigateLog w.
Proof.
  unfold fireTimer. destruct (timers w) as [|[[] d] rest] eqn:Ht; simpl.
  - rewrite Ht. split; reflexivity.
  - split; reflexivity.
Qed.

Lemma step_timers_invariant initialSteps route (w : World) (e : Event) :
  Forall (fun t => t = resumeTimer) (timers w) ->
  length (timers w) <= length (navigateLog w) ->
  Forall (fun t => t = resumeTimer) (timers (step initialSteps route w e))
  /\ length (timers (step initialSteps route w e))
     <= length (navigateLog (step initialSteps route w e)).
Proof.
  intros Hall Hlen. destruct (isTimerEvent e) eqn:He.
  - destruct e; try discriminate. simpl.
    destruct (fireTimer_timers now w) as [-> ->].
    destruct (timers w) as [|t rest]; simpl in *; [split; [constructor|lia]|].
    apply Forall_cons in Hall as [_ Hall]. split; [exact Hall|lia].
  - destruct (step_timers initialSteps route w e He) as [[-> ->]|(p & -> & ->)].
    + split; assumption.
    + split.
      * apply Forall_app. split; [exact Hall|]. constructor; [reflexivity|constructor].
      * rewrite !length_app. simpl. lia.
Qed.

(** X2. From the mounted hook, along every execution, every pending timer
    is the resume timer with the delay of 500 ms, and there are never more
    pending timers than [navigate] calls made: a timer is only ever
    scheduled together with a navigation. *)
Theorem timers_are_resume_timers initialSteps route
    (now : Z) (path : string) (store : gmap string string) (es : list Event) :
  let w' := exec initialSteps route (mount initialSteps now path store) es in
  Forall (fun t => t = mkTimer ResumeTour 500) (timers w')
  /\ length (timers w') <= length (navigateLog w').
Proof.
  intros w'. subst w'.
  assert (Hgen : forall (es : list Event) (w : World),
             Forall (fun t => t = resumeTimer) (timers w) ->
             length (timers w) <= length (navigateLog w) ->
             Forall (fun t => t = resumeTimer) (timers (exec initialSteps route w es))
             /\ length (timers (exec initialSteps route w es))
                <= length (navigateLog (exec initialSteps route w es))).
  { clear es. induction es as [|e es IH]; intros w Hall Hlen; [split; assumption|].
    simpl. destruct (step_timers_invariant initialSteps route w e Hall Hlen).
    apply IH; assumption. }
  apply Hgen; simpl; [constructor|lia].
Qed.

(** ** The navigation effect *)

(** X3. Running the navigation effect twice in a row is the same as running
    it once: after it has paused the tour and navigated, a second run does
    nothing. *)
Theorem navigationEffect_idempotent route (w : World) :
  navigationEffect route (navigationEffect route w) = navigationEffect route w.
Proof.
  assert (Hc : navigationEffect route w = w
               \/ run (tourState (navigationEffect route w)) = false).
  { unfold navigationEffect.
    destruct (run (tourState w)) eqn:Hrun; [|left; reflexivity].
    destruct (stepAt _ _) as [currentStep|]; [|left; reflexivity].
    destruct (truthyPath _) as [p|]; [|left; reflexivity].
    destruct (decide (pathname w = p)) as [Heq|Hne].
    - left. apply handleNavigation_here, Heq.
    - right. rewrite (handleNavigation_away route p w Hne). reflexivity. }
  destruct Hc as [Hc|Hc].
  - rewrite Hc. exact Hc.
  - unfold navigationEffect at 1. rewrite Hc. reflexivity.
Qed.

(** X4. When the tour runs on a step asking for another page, no timer is
    pending and the router lands on the requested path, then the effect,
    the firing of the timer and the effect that follows leave the tour
    running on the same step of the same list, on the requested page, with
    the key read when the timer fired, one [navigate] call made and no timer
    pending: the tour does not pause a second time. *)
Theorem navigation_settles initialSteps route (w : World) (currentStep : Step)
    (p : string) (now : Z) :
  run (tourState w) = true ->
  stepAt (steps (tourState w)) (stepIndex (tourState w)) = Some currentStep ->
  truthyPath (navigateTo currentStep) = Some p ->
  pathname w <> p ->
  timers w = [] ->
  route (pathname w) p = p ->
  exec initialSteps route w [EEffect; ETimer now; EEffect]
  = mkWorld (mkTourState true (steps (tourState w)) (stepIndex (tourState w)) now)
            p (localStorage w) (setItemLog w) [] (navigateLog w ++ [p]).
Proof.
  intros Hrun Hat Hp Hne Ht Hroute. simpl.
  assert (H1 : navigationEffect route w = handleNavigation route p w).
  { unfold navigationEffect. rewrite Hrun, Hat, Hp. reflexivity. }
  rewrite H1, handleNavigation_away by exact Hne. rewrite Ht, Hroute. simpl.
  unfold fireTimer. simpl. unfold resumeTour, setTourState. simpl.
  unfold navigationEffect. simpl. rewrite Hat, Hp.
  apply handleNavigation_here. reflexivity.
Qed.

Lemma navigation_settles_witness :
  exec INITIAL_STEPS absoluteRoute demoBeforeProfile [EEffect; ETimer 5000; EEffect]
  = mkWorld (mkTourState true (steps (tourState demoBeforeProfile))
                         (stepIndex (tourState demoBeforeProfile)) 5000)
            "/profile" (localStorage demoBeforeProfile) (setItemLog demoBeforeProfile)
            [] (navigateLog demoBeforeProfile ++ ["/profile"]).
Proof.
  apply (navigation_settles INITIAL_STEPS absoluteRoute demoBeforeProfile
           profileTitleStep "/profile" 5000).
  - vm_compute. reflexivity.
  - vm_compute. reflexivity.
  - vm_compute. reflexivity.
  - vm_compute. discriminate.
  - vm_compute. reflexivity.
  - reflexivity.
Defined.

Lemma exec_app initialSteps route (es1 es2 : list Event) (w : World) :
  exec initialSteps route w (es1 ++ es2)
  = exec initialSteps route (exec initialSteps route w es1) es2.
Proof. unfold exec. apply fold_left_app. Qed.

(** One round of effect and timer under a router that never reaches [p]. *)
Lemma resume_cycle_unreachable initialSteps route (w : World) (currentStep : Step)
    (p : string) (now : Z) :
  (forall from : string, route from p <> p) ->
  run (tourState w) = true ->
  stepAt (steps (tourState w)) (stepIndex (tourState w)) = Some currentStep ->
  truthyPath (navigateTo currentStep) = Some p ->
  pathname w <> p ->
  timers w = [] ->
  let w' := exec initialSteps route w [EEffect; ETimer now] in
  run (tourState w') = true
  /\ steps (tourState w') = steps (tourState w)
  /\ stepIndex (tourState w') = stepIndex (tourState w)
  /\ pathname w' <> p
  /\ timers w' = []
  /\ navigateLog w' = navigateLog w ++ [p].
Proof.
  intros Hroute Hrun Hat Hp Hne Ht. simpl.
  assert (H1 : navigationEffect route w = handleNavigation route p w).
  { unfold navigationEffect. rewrite Hrun, Hat, Hp. reflexivity. }
  rewrite H1, handleNavigation_away by exact Hne. rewrite Ht. simpl.
  unfold fireTimer. simpl. repeat split. apply Hroute.
Qed.

(** X5. When the router never lands on the path a step asks for (every
    navigation to it ends elsewhere, as under a redirect), the tour never
    settles: after any number of rounds of effect and timer, the next run of
    the effect pauses the tour again, with one timer pending and one more
    [navigate] call than rounds. *)
Theorem unreachable_page_never_settles initialSteps route (currentStep : Step)
    (p : string) (nows : list Z) :
  (forall from : string, route from p <> p) ->
  truthyPath (navigateTo currentStep) = Some p ->
  forall w : World,
    run (tourState w) = true ->
    stepAt (steps (tourState w)) (stepIndex (tourState w)) = Some currentStep ->
    pathname w <> p ->
    timers w = [] ->
    let w' := exec initialSteps route w (resumeCycles nows ++ [EEffect]) in
    run (tourState w') = false
    /\ timers w' = [mkTimer ResumeTour 500]
    /\ navigateLog w' = navigateLog w ++ replicate (S (length nows)) p.
Proof.
  intros Hroute Hp. induction nows as [|now nows IH]; intros w Hrun Hat Hne Ht.
  - simpl.
    assert (H1 : navigationEffect route w = handleNavigation route p w).
    { unfold navigationEffect. rewrite Hrun, Hat, Hp. reflexivity. }
    rewrite H1, handleNavigation_away by exact Hne. rewrite Ht. repeat split.
  - change (resumeCycles (now :: nows) ++ [EEffect])
      with ([EEffect; ETimer now] ++ (resumeCycles nows ++ [EEffect])).
    rewrite exec_app.
    destruct (resume_cycle_unreachable initialSteps route w currentStep p now
                Hroute Hrun Hat Hp Hne Ht) as (Hrun' & Hsteps & Hidx & Hne' & Ht' & Hnav).
    specialize (IH (exec initialSteps route w [EEffect; ETimer now]) Hrun').
    rewrite Hsteps, Hidx in IH. specialize (IH Hat Hne' Ht').
    destruct IH as (Hr & Htm & Hlog). split; [exact Hr|]. split; [exact Htm|].
    rewrite Hlog, Hnav, <- app_assoc. reflexivity.
Qed.

Lemma unreachable_page_never_settles_witness :
  let w' := exec INITIAL_STEPS loginRedirectRoute demoBeforeProfile
              (resumeCycles [5000; 6000]%Z ++ [EEffect]) in
  run (tourState w') = false
  /\ timers w' = [mkTimer ResumeTour 500]
  /\ navigateLog w' = navigateLog demoBeforeProfile ++ replicate 3 "/profile".
Proof.
  apply (unreachable_page_never_settles INITIAL_STEPS loginRedirectRoute
           profileTitleStep "/profile" [5000; 6000]%Z).
  - intros from. vm_compute. discriminate.
  - vm_compute. reflexivity.
  - vm_compute. reflexivity.
  - vm_compute. reflexivity.
  - vm_compute. discriminate.
  - vm_compute. reflexivity.
Defined.

(** ** Pending timers are never cancelled *)

Lemma exec_keeps_pending_timer initialSteps route (es : list Event) :
  forall w : World,
    forallb (fun e => negb (isTimerEvent e)) es = true ->
    timers w <> [] ->
    timers (exec initialSteps route w es) <> [].
Proof.
  induction es as [|e es IH]; intros w Hes Ht; [exact Ht|].
  simpl in Hes. apply andb_prop in Hes as [He Hes]. apply negb_true_iff in He.
  simpl. apply IH; [exact Hes|].
  destruct (step_timers initialSteps route w e He) as [[-> _]|(p & -> & _)];
    [exact Ht|].
  destruct (timers w); discriminate.
Qed.

(** X6. No operation of the hook cancels a pending resume timer: whatever
    happens between its scheduling and its firing (the tour being finished,
    skipped, closed or paused with [setRun false]), the timer that then
    fires sets [run] to [true] and assigns the key. *)
Theorem pending_resume_reactivates initialSteps route (w : World) (es : list Event)
    (now : Z) :
  forallb (fun e => negb (isTimerEvent e)) es = true ->
  timers w <> [] ->
  let w' := fireTimer now (exec initialSteps route w es) in
  run (tourState w') = true /\ tourKey (tourState w') = now.
Proof.
  intros Hes Ht.
  pose proof (exec_keeps_pending_timer initialSteps route es w Hes Ht) as Ht'.
  simpl. destruct (timers (exec initialSteps route w es)) as [|t rest] eqn:Hq;
    [contradiction|].
  rewrite (fireTimer_pending now t rest _ Hq). split; reflexivity.
Qed.

Lemma pending_resume_reactivates_witness :
  let w' := fireTimer 5000
              (exec INITIAL_STEPS absoluteRoute
                 (navigationEffect absoluteRoute demoBeforeProfile)
                 [ECallback (skipClicked 6); ESetRun false]) in
  run (tourState w') = true /\ tourKey (tourState w') = 5000%Z.
Proof.
  apply (pending_resume_reactivates INITIAL_STEPS absoluteRoute
           (navigationEffect absoluteRoute demoBeforeProfile)
           [ECallback (skipClicked 6); ESetRun false] 5000).
  - reflexivity.
  - vm_compute. discriminate.
Defined.

(** ** Going forward and back, closing and resuming *)

(** X7. When the tour runs on the step joyride reports, an advance forward
    from that index followed by a PREV advance from the next index brings
    the world back exactly: same step, same key, nothing written, nothing
    scheduled. *)
Theorem callback_forward_then_back (d1 d2 : CallBackProps) (w : World) :
  advances d1 = true -> action d1 <> ACTIONS.PREV ->
  advances d2 = true -> action d2 = ACTIONS.PREV ->
  run (tourState w) = true ->
  index d1 = stepIndex (tourState w) ->
  index d2 = (index d1 + 1)%Z ->
  handleJoyrideCallback d2 (handleJoyrideCallback d1 w) = w.
Proof.
  unfold advances. intros Ha1 Hn1 Ha2 Hp2 Hrun Hi1 Hi2.
  apply andb_prop in Ha1 as [Ha1 Hc1]. apply andb_prop in Ha1 as [Hs1 Ht1].
  apply andb_prop in Ha2 as [Ha2 Hc2]. apply andb_prop in Ha2 as [Hs2 Ht2].
  apply bool_decide_eq_true in Hs1, Ht1, Hc1, Hs2, Ht2, Hc2.
  unfold handleJoyrideCallback, nextStepIndexOf.
  repeat case_decide; try contradiction.
  destruct w as [[r st i k] pa ls log tm nav]. simpl in *. subst r.
  unfold setTourState. simpl. do 2 f_equal. lia.
Qed.

Lemma callback_forward_then_back_witness :
  handleJoyrideCallback (prevClicked 5)
    (handleJoyrideCallback (nextClicked 4) demoAtDashboardTitle)
  = demoAtDashboardTitle.
Proof.
  apply (callback_forward_then_back (nextClicked 4) (prevClicked 5) demoAtDashboardTitle).
  - reflexivity.
  - discriminate.
  - reflexivity.
  - reflexivity.
  - vm_compute. reflexivity.
  - vm_compute. reflexivity.
  - reflexivity.
Defined.

(** X8. Closing a running tour keeps its position: after the close event
    (status neither FINISHED nor SKIPPED), [setRun true] brings back the
    tour state as it was, step index and key included. A FINISHED or
    SKIPPED status instead rewinds the index to 0. *)
Theorem close_then_resume_keeps_position (d d' : CallBackProps) (w : World) :
  action d = ACTIONS.CLOSE ->
  type d = EVENTS.STEP_AFTER \/ type d = EVENTS.TARGET_NOT_FOUND ->
  ~ (status d = STATUS.FINISHED \/ status d = STATUS.SKIPPED) ->
  status d' = STATUS.FINISHED \/ status d' = STATUS.SKIPPED ->
  run (tourState w) = true ->
  tourState (setRun true (handleJoyrideCallback d w)) = tourState w
  /\ tourState (setRun true (handleJoyrideCallback d' w))
     = mkTourState true (steps (tourState w)) 0 (tourKey (tourState w)).
Proof.
  intros Ha Hty Hst Hst' Hrun. unfold handleJoyrideCallback.
  repeat case_decide; try contradiction.
  destruct w as [[r st i k] pa ls log tm nav]. simpl in *. subst r.
  split; reflexivity.
Qed.

Lemma close_then_resume_keeps_position_witness :
  tourState (setRun true (handleJoyrideCallback (closeClicked 4) demoAtDashboardTitle))
  = tourState demoAtDashboardTitle
  /\ tourState (setRun true (handleJoyrideCallback (skipClicked 4) demoAtDashboardTitle))
     = mkTourState true (steps (tourState demoAtDashboardTitle)) 0
                   (tourKey (tourState demoAtDashboardTitle)).
Proof.
  apply (close_then_resume_keeps_position (closeClicked 4) (skipClicked 4)
           demoAtDashboardTitle).
  - reflexivity.
  - left. reflexivity.
  - intros [Hc|Hc]; discriminate Hc.
  - right. reflexivity.
  - vm_compute. reflexivity.
Defined.

(** ** Editing the step list *)

(** X9. Edits of the step list compose: two [addSteps] calls append both
    lists in order, [addSteps] after [setSteps] extends the list that was
    set, and [setSteps] discards what [addSteps] appended; the key is the
    one read by the last call. *)
Theorem step_list_edits_compose (a b s : list Step) (t1 t2 : Z) (w : World) :
  addSteps b t2 (addSteps a t1 w) = addSteps (a ++ b) t2 w
  /\ addSteps a t2 (setSteps s t1 w) = setSteps (s ++ a) t2 w
  /\ setSteps s t2 (addSteps a t1 w) = setSteps s t2 w.
Proof.
  unfold addSteps, setSteps, setTourState. simpl.
  rewrite <- app_assoc. repeat split.
Qed.

(** X10. The step list is only changed by [startTour], [addSteps] and
    [setSteps]: along an execution made of joyride callbacks, [setRun]
    calls, runs of the navigation effect and timers, [steps] stays as it
    was. *)
Theorem steps_stable_without_edits initialSteps route (es : list Event) :
  forall w : World,
    forallb (fun e => negb (editsSteps e)) es = true ->
    steps (tourState (exec initialSteps route w es)) = steps (tourState w).
Proof.
  induction es as [|e es IH]; intros w Hes; [reflexivity|].
  simpl in Hes. apply andb_prop in Hes as [He Hes]. simpl. rewrite (IH _ Hes).
  destruct e as [s now|d|s now| b |s now | |now]; simpl in He; try discriminate; simpl.
  - unfold handleJoyrideCallback. repeat case_decide; reflexivity.
  - reflexivity.
  - apply navigationEffect_position.
  - apply fireTimer_position.
Qed.

Lemma steps_stable_without_edits_witness :
  steps (tourState (exec INITIAL_STEPS absoluteRoute demoBeforeProfile
                      [EEffect; ETimer 5000; EEffect; ECallback (skipClicked 6);
                       ESetRun true]))
  = steps (tourState demoBeforeProfile).
Proof.
  apply (steps_stable_without_edits INITIAL_STEPS absoluteRoute
           [EEffect; ETimer 5000; EEffect; ECallback (skipClicked 6); ESetRun true]
           demoBeforeProfile).
  reflexivity.
Defined.

(** ** Restarting *)

(** X11. [startTour] forgets the tour that was there: called with the same
    steps at the same clock reading on the same page, it leaves the same
    tour state and the same page whatever the previous [run], [steps],
    [stepIndex] and [tourKey], the storage, the pending timers and the
    navigations made so far. In particular it does not read the seen flag. *)
Theorem startTour_depends_only_on_page initialSteps route
    (startSteps : option (list Step)) (now : Z) (w1 w2 : World) :
  pathname w1 = pathname w2 ->
  tourState (startTour initialSteps route startSteps now w1)
  = tourState (startTour initialSteps route startSteps now w2)
  /\ pathname (startTour initialSteps route startSteps now w1)
     = pathname (startTour initialSteps route startSteps now w2).
Proof.
  intros Hpath. unfold startTour.
  destruct (effectiveStepsOf (default initialSteps startSteps) !! 0) as [firstStep|];
    [|split; [reflexivity|exact Hpath]].
  destruct (truthyPath (navigateTo firstStep)) as [p|];
    [|split; [reflexivity|exact Hpath]].
  simpl. rewrite <- Hpath.
  destruct (decide (pathname w1 <> p)) as [Hne|Heq]; [|split; [reflexivity|exact Hpath]].
  rewrite !handleNavigation_away by (simpl; congruence).
  simpl. rewrite Hpath. split; reflexivity.
Qed.

Lemma startTour_depends_only_on_page_witness :
  tourState (startTour INITIAL_STEPS absoluteRoute (Some [profileTitleStep]) 7000
               demoBeforeProfile)
  = tourState (startTour INITIAL_STEPS absoluteRoute (Some [profileTitleStep]) 7000
                 demoMount)
  /\ pathname (startTour INITIAL_STEPS absoluteRoute (Some [profileTitleStep]) 7000
                 demoBeforeProfile)
     = pathname (startTour INITIAL_STEPS absoluteRoute (Some [profileTitleStep]) 7000
                   demoMount).
Proof.
  apply (startTour_depends_only_on_page INITIAL_STEPS absoluteRoute
           (Some [profileTitleStep]) 7000 demoBeforeProfile demoMount).
  vm_compute. reflexivity.
Defined.

(** * The auto start of the demo application *)

Lemma callback_sets_seen_flag (d : CallBackProps) (w : World) :
  status d = STATUS.FINISHED \/ status d = STATUS.SKIPPED
  \/ (action d = ACTIONS.CLOSE
      /\ (type d = EVENTS.STEP_AFTER \/ type d = EVENTS.TARGET_NOT_FOUND)) ->
  localStorage (handleJoyrideCallback d w) !! "tourViewed" = Some "true".
Proof.
  intros Hd. unfold handleJoyrideCallback.
  repeat case_decide; simpl; try apply lookup_insert_eq; exfalso; tauto.
Qed.

(** X12. Once a tour has been finished, skipped or closed, the wrapper's
    effect schedules no auto start any more, whatever the hook did since:
    the seen flag is still there. *)
Theorem seen_flag_suppresses_autoStart initialSteps route (d : CallBackProps)
    (w : World) (es : list Event) (pending : list Z) :
  status d = STATUS.FINISHED \/ status d = STATUS.SKIPPED
  \/ (action d = ACTIONS.CLOSE
      /\ (type d = EVENTS.STEP_AFTER \/ type d = EVENTS.TARGET_NOT_FOUND)) ->
  autoStartEffect
    (mkApp (exec initialSteps route (handleJoyrideCallback d w) es) pending)
  = mkApp (exec initialSteps route (handleJoyrideCallback d w) es) pending.
Proof.
  intros Hd. unfold autoStartEffect, localStorage_getItem. simpl.
  rewrite (exec_keeps_seen_flag initialSteps route _ es (callback_sets_seen_flag d w Hd)).
  reflexivity.
Qed.

Lemma seen_flag_suppresses_autoStart_witness :
  autoStartEffect
    (mkApp (exec INITIAL_STEPS absoluteRoute
              (handleJoyrideCallback (closeClicked 4) demoAtDashboardTitle)
              [EStartTour None 9000; EEffect]) [])
  = mkApp (exec INITIAL_STEPS absoluteRoute
             (handleJoyrideCallback (closeClicked 4) demoAtDashboardTitle)
             [EStartTour None 9000; EEffect]) [].
Proof.
  apply (seen_flag_suppresses_autoStart INITIAL_STEPS absoluteRoute (closeClicked 4)
           demoAtDashboardTitle [EStartTour None 9000; EEffect] []).
  right. right. split; [reflexivity | left; reflexivity].
Defined.

(** X13. On a first visit (no seen flag, or an empty one) the wrapper's
    effect schedules one timer of 1000 ms; when it fires, the default tour
    runs at once on its first step, on whatever page is shown, with the key
    read at that moment, without navigating or scheduling a resume timer. *)
Theorem first_visit_autoStart route (a : AppWorld) (now : Z) :
  isFalsy (localStorage_getItem "tourViewed" (hookWorld a)) = true ->
  autoStartTimers a = [] ->
  autoStartTimers (autoStartEffect a) = [1000%Z]
  /\ fireAutoStart route now (autoStartEffect a)
     = mkApp (mkWorld (mkTourState true INITIAL_STEPS 0 now)
                      (pathname (hookWorld a)) (localStorage (hookWorld a))
                      (setItemLog (hookWorld a)) (timers (hookWorld a))
                      (navigateLog (hookWorld a)))
             [].
Proof.
  intros Hflag Hq. unfold autoStartEffect. rewrite Hflag, Hq. simpl.
  split; reflexivity.
Qed.

Lemma first_visit_autoStart_witness :
  autoStartTimers (autoStartEffect demoApp) = [1000%Z]
  /\ fireAutoStart absoluteRoute 1000 (autoStartEffect demoApp)
     = mkApp (mkWorld (mkTourState true INITIAL_STEPS 0 1000)
                      (pathname (hookWorld demoApp)) (localStorage (hookWorld demoApp))
                      (setItemLog (hookWorld demoApp)) (timers (hookWorld demoApp))
                      (navigateLog (hookWorld demoApp)))
             [].
Proof.
  apply (first_visit_autoStart absoluteRoute demoApp 1000).
  - vm_compute. reflexivity.
  - reflexivity.
Defined.

(** X14. The auto-start timer does not look at the seen flag when it fires.
    On a first visit, if the user starts the tour from the navbar and
    finishes or skips it before the timer fires, the timer still starts the
    tour again: afterwards the flag is set and the tour runs from step 0. *)
Theorem autoStart_fires_despite_seen_flag route (a : AppWorld) (d : CallBackProps)
    (now1 now2 : Z) :
  isFalsy (localStorage_getItem "tourViewed" (hookWorld a)) = true ->
  autoStartTimers a = [] ->
  status d = STATUS.FINISHED \/ status d = STATUS.SKIPPED ->
  let a' := fireAutoStart route now2
              (appCallback d (onShowTourClick route now1 (autoStartEffect a))) in
  localStorage (hookWorld a') !! "tourViewed" = Some "true"
  /\ tourState (hookWorld a') = mkTourState true INITIAL_STEPS 0 now2
  /\ autoStartTimers a' = [].
Proof.
  intros Hflag Hq Hd. unfold autoStartEffect. rewrite Hflag, Hq. simpl.
  unfold handleJoyrideCallback. destruct (decide _) as [_|Hn]; [|contradiction].
  simpl. split; [apply lookup_insert_eq|]. split; reflexivity.
Qed.

Lemma autoStart_fires_despite_seen_flag_witness :
  let a' := fireAutoStart absoluteRoute 1000
              (appCallback (skipClicked 0)
                 (onShowTourClick absoluteRoute 400 (autoStartEffect demoApp))) in
  localStorage (hookWorld a') !! "tourViewed" = Some "true"
  /\ tourState (hookWorld a') = mkTourState true INITIAL_STEPS 0 1000
  /\ autoStartTimers a' = [].
Proof.
  apply (autoStart_fires_despite_seen_flag absoluteRoute demoApp (skipClicked 0) 400 1000).
  - vm_compute. reflexivity.
  - reflexivity.
  - right. reflexivity.
Defined.

(** * The requests of [authApiSlice] *)

(** X15. Two mutation calls that produce the same method and the same URL
    belong to the same endpoint, and two [deleteUser] calls with the same
    URL carry the same id: no request of one endpoint can be taken for a
    request of another. *)
Theorem auth_requests_identify_endpoint (Body : Type)
    (c1 c2 : authApiSlice.Call Body) :
  authApiSlice.method (authApiSlice.query Body c1)
  = authApiSlice.method (authApiSlice.query Body c2) ->
  authApiSlice.url (authApiSlice.query Body c1)
  = authApiSlice.url (authApiSlice.query Body c2) ->
  authApiSlice.endpointName Body c1 = authApiSlice.endpointName Body c2
  /\ forall id1 id2 : string,
       c1 = authApiSlice.DeleteUser Body id1 ->
       c2 = authApiSlice.DeleteUser Body id2 -> id1 = id2.
Proof.
  intros Hm Hu. split.
  - destruct c1, c2; simpl in *; try reflexivity; try discriminate Hm;
      try discriminate Hu.
  - intros id1 id2 -> ->. simpl in Hu. injection Hu as Hid. exact Hid.
Qed.

Lemma auth_requests_identify_endpoint_witness :
  authApiSlice.endpointName nat (authApiSlice.DeleteUser nat "42")
  = authApiSlice.endpointName nat (authApiSlice.DeleteUser nat "42")
  /\ forall id1 id2 : string,
       authApiSlice.DeleteUser nat "42" = authApiSlice.DeleteUser nat id1 ->
       authApiSlice.DeleteUser nat "42" = authApiSlice.DeleteUser nat id2 -> id1 = id2.
Proof.
  apply (auth_requests_identify_endpoint nat
           (authApiSlice.DeleteUser nat "42") (authApiSlice.DeleteUser nat "42")).
  - reflexivity.
  - reflexivity.
Defined.

(** * The render key between assignments *)

(** X16. Joyride callbacks, [setRun] calls and runs of the navigation effect
    never change [tourKey]: along an execution made of them the overlay
    keeps the key it had, whatever the callbacks report. *)
Theorem tourKey_stable_without_assignment initialSteps route (es : list Event) :
  forall w : World,
    forallb (fun e => negb (editsSteps e) && negb (isTimerEvent e)) es = true ->
    tourKey (tourState (exec initialSteps route w es)) = tourKey (tourState w).
Proof.
  induction es as [|e es IH]; intros w Hes; [reflexivity|].
  simpl in Hes. apply andb_prop in Hes as [He Hes]. simpl. rewrite (IH _ Hes).
  apply step_keeps_key.
  destruct e; simpl in He; try discriminate; reflexivity.
Qed.

Lemma tourKey_stable_without_assignment_witness :
  tourKey (tourState (exec INITIAL_STEPS absoluteRoute demoStarted
                        [ECallback (nextClicked 0); EEffect; ECallback (prevClicked 1);
                         ESetRun false; ECallback (skipClicked 0); ESetRun true]))
  = tourKey (tourState demoStarted).
Proof.
  apply (tourKey_stable_without_assignment INITIAL_STEPS absoluteRoute
           [ECallback (nextClicked 0); EEffect; ECallback (prevClicked 1);
            ESetRun false; ECallback (skipClicked 0); ESetRun true] demoStarted).
  reflexivity.
Defined.
